(** * Virtual UART receiver ([virtualserial.py]): a shallow embedding

    The receiver bit-bangs a synchronous protocol over four GPIO lines.
    The embedding follows the Python source function by function:

    - the [RPi.GPIO] module is an interface ([Gpio]) over an abstract
      world; every [GPIO.input] / [GPIO.output] call is one step of that
      world and leaves one [Event] in the trace of the run;
    - the [while ...: pass] loops are modelled with fuel: [Spin] is the
      outcome of a loop that is still polling when the fuel runs out;
    - Python exceptions ([IndexError] of [bits[i]], [ValueError] of [chr])
      are the outcome [Raise];
    - a Python [str] is the list of its code points, a one-character
      string is its code point. *)

From Stdlib Require Import String Ascii.
From Stdlib Require Import ZArith Bool Lia List.
Import ListNotations.
Local Open Scope Z_scope.

(** ** Pins and levels *)

Definition VIRTUAL_NOTIFY_LINE : Z := 1.
Definition VIRTUAL_ENABLE_LINE : Z := 7.
Definition VIRTUAL_DATA_LINE : Z := 25.
Definition VIRTUAL_CLOCK_LINE : Z := 24.

(** [GPIO.LOW] is 0 and [GPIO.HIGH] is 1; a level is the boolean "is high". *)
Definition GPIO_LOW : bool := false.
Definition GPIO_HIGH : bool := true.

(** One call into [RPi.GPIO], with the level that was read or written. *)
Inductive Event : Type :=
| Input (pin : Z) (level : bool)
| Output (pin : Z) (level : bool).

Definition Event_eq_dec (x y : Event) : {x = y} + {x <> y}.
Proof. decide equality; try apply Bool.bool_dec; apply Z.eq_dec. Defined.

(** ** Python values used by the receiver *)

Inductive exn : Type := IndexError | ValueError.

Inductive result (A : Type) : Type :=
| Ok (a : A)
| Exc (e : exn).
Arguments Ok {A} a.
Arguments Exc {A} e.

(** A [str] as the list of its code points. *)
Definition str : Type := list Z.

Definition str_of_string (s : string) : str :=
  map (fun a => Z.of_N (N_of_ascii a)) (list_ascii_of_string s).

(** [chr(c)]: the character with code point [c]; [ValueError] outside
    [range(0x110000)]. *)
Definition chr (c : Z) : result Z :=
  if (0 <=? c) && (c <? 1114112) then Ok c else Exc ValueError.

(** [bits[i]] for a non-negative [i]: [IndexError] past the end. *)
Definition getitem (bits : list bool) (i : nat) : result bool :=
  match nth_error bits i with
  | Some b => Ok b
  | None => Exc IndexError
  end.

(** ** Byte assembler *)

(** The body of [for i in range(8): c |= bits[i] << i], over the indices
    still to visit. *)
Fixpoint assemble_loop (bits : list bool) (idx : list nat) (c : Z) : result Z :=
  match idx with
  | [] => Ok c
  | i :: idx' =>
      match getitem bits i with
      | Ok b => assemble_loop bits idx' (Z.lor c (Z.shiftl (Z.b2z b) (Z.of_nat i)))
      | Exc e => Exc e
      end
  end.

Definition bool_arr_to_char (bits : list bool) : result Z :=
  match assemble_loop bits (seq 0 8) 0 with
  | Ok c => chr c
  | Exc e => Exc e
  end.

(** Specification side: the LSB-first decomposition of a byte into 8 bits,
    and the weighted sum of a bit sequence over the indices 0..7. *)
Definition bits_of (b : Z) : list bool :=
  map (fun i => Z.testbit b (Z.of_nat i)) (seq 0 8).

Definition weighted_sum (bits : list bool) : Z :=
  fold_right Z.add 0
    (map (fun i => Z.b2z (nth i bits false) * 2 ^ Z.of_nat i) (seq 0 8)).

(** ** The GPIO interface and the monad of receiver runs *)

Class Gpio (World : Type) : Type := {
  (** [GPIO.input(pin)]: the level read, and the world after the poll. *)
  gpio_input : World -> Z -> bool * World;
  (** [GPIO.output(pin, level)]. *)
  gpio_output : World -> Z -> bool -> World
}.

Inductive outcome (World A : Type) : Type :=
| Ret (a : A) (w : World) (tr : list Event)
| Raise (e : exn)
| Spin.
Arguments Ret {World A} a w tr.
Arguments Raise {World A} e.
Arguments Spin {World A}.

Definition M (World A : Type) : Type := World -> outcome World A.

Definition ret {World A} (a : A) : M World A := fun w => Ret a w [].

Definition bind {World A B} (m : M World A) (f : A -> M World B) : M World B :=
  fun w =>
    match m w with
    | Ret a w1 t1 =>
        match f a w1 with
        | Ret b w2 t2 => Ret b w2 (t1 ++ t2)
        | Raise e => Raise e
        | Spin => Spin
        end
    | Raise e => Raise e
    | Spin => Spin
    end.

Definition lift {World A} (r : result A) : M World A :=
  fun w => match r with Ok a => Ret a w [] | Exc e => Raise e end.

(** A loop that is still running when the fuel is spent. *)
Definition spin {World A} : M World A := fun _ => Spin.

Notation "x <- m ;; k" := (bind m (fun x => k))
  (at level 61, m at next level, right associativity).
Notation "m ;;; k" := (bind m (fun _ => k))
  (at level 61, right associativity).

Section Receiver.
Context {World : Type} `{Gpio World}.

Definition GPIO_input (pin : Z) : M World bool :=
  fun w => let (v, w') := gpio_input w pin in Ret v w' [Input pin v].

Definition GPIO_output (pin : Z) (level : bool) : M World unit :=
  fun w => Ret tt (gpio_output w pin level) [Output pin level].

(** [while GPIO.input(pin) == level: pass] *)
Fixpoint poll_while (fuel : nat) (pin : Z) (level : bool) : M World unit :=
  match fuel with
  | O => spin
  | S fuel' =>
      v <- GPIO_input pin ;;
      if Bool.eqb v level then poll_while fuel' pin level else ret tt
  end.

Definition wait_for_notif (fuel : nat) : M World unit :=
  poll_while fuel VIRTUAL_NOTIFY_LINE GPIO_LOW.

Definition enable : M World unit :=
  GPIO_output VIRTUAL_ENABLE_LINE GPIO_HIGH.

Definition disable : M World unit :=
  GPIO_output VIRTUAL_ENABLE_LINE GPIO_LOW.

Definition read : M World bool :=
  v <- GPIO_input VIRTUAL_DATA_LINE ;; ret (Bool.eqb v GPIO_HIGH).

Definition wait_for_clock_high (fuel : nat) : M World unit :=
  poll_while fuel VIRTUAL_CLOCK_LINE GPIO_LOW.

Definition wait_for_clock_low (fuel : nat) : M World unit :=
  poll_while fuel VIRTUAL_CLOCK_LINE GPIO_HIGH.

(** The body of the [for _ in range(8)] loop of [read_char]: one bit. *)
Definition sample_bit (fuel : nat) (bits : list bool) : M World (list bool) :=
  enable ;;;
  wait_for_clock_high fuel ;;;
  b <- read ;;
  disable ;;;
  wait_for_clock_low fuel ;;;
  ret (bits ++ [b]).

(** [for _ in range(n): bits = body(bits)] *)
Fixpoint for_range (n : nat) (body : list bool -> M World (list bool))
    (bits : list bool) : M World (list bool) :=
  match n with
  | O => ret bits
  | S n' => bits' <- body bits ;; for_range n' body bits'
  end.

Definition read_char (fuel : nat) : M World Z :=
  bits <- for_range 8 (sample_bit fuel) [] ;;
  lift (bool_arr_to_char bits).

(** The [while True] loop of [read_vuart_string]; [iters] bounds the number
    of characters, [fuel] the polls of each wait. *)
Fixpoint read_loop (iters fuel : nat) (received_data : str) : M World str :=
  match iters with
  | O => spin
  | S iters' =>
      c <- read_char fuel ;;
      if c =? 10 then ret received_data
      else read_loop iters' fuel (received_data ++ [c])
  end.

Definition read_vuart_string (fuel : nat) : M World str :=
  wait_for_notif fuel ;;;
  read_loop fuel fuel [].

End Receiver.

(** ** A simulated line source

    A finite sequence of snapshots of the three input lines. Every poll
    consumes one snapshot; once the sequence is used up the lines read
    their idle bias, which is low (all three are set up [PUD_DOWN]).
    Writes to [Enable] do not move the sequence. *)

Record Levels : Type := mkLevels {
  notify_level : bool;
  data_level : bool;
  clock_level : bool
}.

Definition level_of (s : Levels) (pin : Z) : bool :=
  if pin =? VIRTUAL_NOTIFY_LINE then notify_level s
  else if pin =? VIRTUAL_DATA_LINE then data_level s
  else if pin =? VIRTUAL_CLOCK_LINE then clock_level s
  else false.

Definition Trace : Type := list Levels.

#[export] Instance TraceGpio : Gpio Trace := {
  gpio_input w pin :=
    match w with
    | [] => (false, [])
    | s :: w' => (level_of s pin, w')
    end;
  gpio_output w _ _ := w
}.

(** What a sender puts on the lines for one bit: the clock stays low for
    [setup] polls, is high for the poll that ends the wait, for the data
    poll and for [hold] more polls, then low again. *)
Definition send_bit (setup hold : nat) (b : bool) : Trace :=
  repeat (mkLevels false b false) setup
  ++ repeat (mkLevels false b true) (2 + hold)
  ++ [mkLevels false b false].

Definition send_byte (setup hold : nat) (byte : Z) : Trace :=
  flat_map (send_bit setup hold) (bits_of byte).

(** The notify line stays low for [idle] polls, then is raised; the bytes
    follow. *)
Definition send_message (idle setup hold : nat) (bytes : list Z) : Trace :=
  repeat (mkLevels false false false) idle
  ++ [mkLevels true false false]
  ++ flat_map (send_byte setup hold) bytes.

(** The level the [Enable] line was last driven to in a run, if any. *)
Fixpoint enable_level (tr : list Event) (last : option bool) : option bool :=
  match tr with
  | [] => last
  | Output pin v :: tr' =>
      enable_level tr' (if pin =? VIRTUAL_ENABLE_LINE then Some v else last)
  | Input _ _ :: tr' => enable_level tr' last
  end.

(** ** Vocabulary of the statements *)

(** The three busy-wait functions of the source, by name. *)
Inductive Wait : Type := WaitNotif | WaitClockHigh | WaitClockLow.

Definition wait_line (wt : Wait) : Z :=
  match wt with
  | WaitNotif => VIRTUAL_NOTIFY_LINE
  | WaitClockHigh | WaitClockLow => VIRTUAL_CLOCK_LINE
  end.

(** The level a wait is waiting for. *)
Definition wait_target (wt : Wait) : bool :=
  match wt with
  | WaitNotif | WaitClockHigh => GPIO_HIGH
  | WaitClockLow => GPIO_LOW
  end.

(** The events of one bit, step by step: Enable is written high, the clock
    is polled until it reads high, the data line is sampled, Enable is
    written low, the clock is polled until it reads low. *)
Inductive bit_handshake (b : bool) : list Event -> Prop :=
| bit_handshake_intro (k1 k2 : nat) :
    bit_handshake b
      ([Output VIRTUAL_ENABLE_LINE GPIO_HIGH]
       ++ repeat (Input VIRTUAL_CLOCK_LINE GPIO_LOW) k1
       ++ [Input VIRTUAL_CLOCK_LINE GPIO_HIGH]
       ++ [Input VIRTUAL_DATA_LINE b]
       ++ [Output VIRTUAL_ENABLE_LINE GPIO_LOW]
       ++ repeat (Input VIRTUAL_CLOCK_LINE GPIO_HIGH) k2
       ++ [Input VIRTUAL_CLOCK_LINE GPIO_LOW]).

Section Vocabulary.
Context {World : Type} `{Gpio World}.

Definition run_wait (wt : Wait) (fuel : nat) : M World unit :=
  match wt with
  | WaitNotif => wait_for_notif fuel
  | WaitClockHigh => wait_for_clock_high fuel
  | WaitClockLow => wait_for_clock_low fuel
  end.

(** [o1] is [o2], or the same run cut short by its fuel. *)
Definition approx {A} (o1 o2 : outcome World A) : Prop :=
  o1 = Spin \/ o1 = o2.

(** The run finishes normally with value [a] in world [w']. *)
Definition returns {A} (m : M World A) (w : World) (a : A) (w' : World) : Prop :=
  exists tr, m w = Ret a w' tr.

(** The world after [n] successive polls of [pin], and the level the next
    poll reads. *)
Fixpoint after_polls (n : nat) (pin : Z) (w : World) : World :=
  match n with
  | O => w
  | S n' => after_polls n' pin (snd (gpio_input w pin))
  end.

Definition poll_level (n : nat) (pin : Z) (w : World) : bool :=
  fst (gpio_input (after_polls n pin w) pin).

(** [tr] is the run of some [read_char] that returned [c]. *)
Definition char_run (fuel : nat) (c : Z) (tr : list Event) : Prop :=
  exists w1 w2 : World, read_char fuel w1 = Ret c w2 tr.

(** [n] characters read one after another. *)
Fixpoint read_chars (n fuel : nat) : M World (list Z) :=
  match n with
  | O => ret []
  | S n' =>
      c <- read_char fuel ;;
      cs <- read_chars n' fuel ;;
      ret (c :: cs)
  end.

End Vocabulary.

(** Line sequences, as the receiver consumes them. [settles pin target tr]:
    every snapshot of [tr] but the last shows [pin] away from [target], the
    last one shows it at [target]. *)
Inductive settles (pin : Z) (target : bool) : Trace -> Prop :=
| settles_now s :
    level_of s pin = target -> settles pin target [s]
| settles_later s tr :
    level_of s pin = negb target -> settles pin target tr ->
    settles pin target (s :: tr).

(** One clock pulse carrying the bit [b]. *)
Inductive carries_bit (b : bool) : Trace -> Prop :=
| carries_bit_intro up d down :
    settles VIRTUAL_CLOCK_LINE GPIO_HIGH up ->
    level_of d VIRTUAL_DATA_LINE = b ->
    settles VIRTUAL_CLOCK_LINE GPIO_LOW down ->
    carries_bit b (up ++ d :: down).

Inductive carries_bits : list bool -> Trace -> Prop :=
| carries_bits_nil : carries_bits [] []
| carries_bits_cons b bs t ts :
    carries_bit b t -> carries_bits bs ts -> carries_bits (b :: bs) (t ++ ts).

(** The first transmitted byte is [byte], sent LSB first. *)
Definition carries_byte (byte : Z) (tr : Trace) : Prop :=
  carries_bits (bits_of byte) tr.

Inductive carries_bytes : list Z -> Trace -> Prop :=
| carries_bytes_nil : carries_bytes [] []
| carries_bytes_cons c cs t ts :
    0 <= c < 256 -> carries_byte c t -> carries_bytes cs ts ->
    carries_bytes (c :: cs) (t ++ ts).

(** ** Sample runs *)

Definition events_of {World A} (o : outcome World A) : list Event :=
  match o with
  | Ret _ _ tr => tr
  | _ => []
  end.

(** One raised clock pulse with the data line high. *)
Definition one_bit_line : Trace := send_bit 0 0 true.

Definition one_bit_events : list Event :=
  Eval vm_compute in events_of (sample_bit 1 [] one_bit_line).

(** The letter h, with no delay. *)
Definition letter_h_line : Trace := send_byte 0 0 0x68.

Definition letter_h_events : list Event :=
  Eval vm_compute in events_of (read_char 1 letter_h_line).

(** Notify after one idle poll, then the letter h and a line feed. *)
Definition h_line : Trace := send_message 1 0 0 [0x68; 0x0A].

Definition h_line_events : list Event :=
  Eval vm_compute in events_of (read_vuart_string 2 h_line).

(** ** The receive loop *)

(** [sys.stdout] is the text written so far. [print] writes its
    arguments separated by one space and ends the line. *)
Fixpoint join (sep : str) (args : list str) : str :=
  match args with
  | [] => []
  | [a] => a
  | a :: rest => a ++ sep ++ join sep rest
  end.

Definition print (args : list str) (stdout : str) : str :=
  stdout ++ join [32] args ++ [10].

Section ReceiveLoop.
Context {World : Type} `{Gpio World}.

Definition print_received (fuel : nat) (stdout : str) : M World str :=
  received_message <- read_vuart_string fuel ;;
  ret (print [str_of_string "Received:"; received_message] stdout).




End ReceiveLoop.

(** The line [print_received] writes for a message. *)
Definition received_line (msg : str) : str :=
  str_of_string "Received: " ++ msg ++ [10].

(** The directions given to the pins by the [GPIO.setup] calls made when
    the module is loaded. *)
Inductive Direction : Type := GPIO_IN | GPIO_OUT.

Definition gpio_setup : list (Z * Direction) :=
  [ (VIRTUAL_NOTIFY_LINE, GPIO_IN);
    (VIRTUAL_ENABLE_LINE, GPIO_OUT);
    (VIRTUAL_DATA_LINE, GPIO_IN);
    (VIRTUAL_CLOCK_LINE, GPIO_IN) ].

Definition direction_of (pin : Z) : option Direction :=
  match find (fun entry => fst entry =? pin) gpio_setup with
  | Some entry => Some (snd entry)
  | None => None
  end.

(** An event that respects the set-up: a read of a pin set up as an input,
    a write of a pin set up as an output. *)
Definition well_directed (e : Event) : Prop :=
  match e with
  | Output pin _ => direction_of pin = Some GPIO_OUT
  | Input pin _ => direction_of pin = Some GPIO_IN
  end.

(** Walks a run with the level Enable is driven to, and checks that every
    sample of the data line is taken while Enable is high. *)
Fixpoint samples_while_enabled (tr : list Event) (level : option bool) : bool :=
  match tr with
  | [] => true
  | Output pin v :: tr' =>
      samples_while_enabled tr'
        (if pin =? VIRTUAL_ENABLE_LINE then Some v else level)
  | Input pin _ :: tr' =>
      (if pin =? VIRTUAL_DATA_LINE
       then match level with Some true => true | _ => false end
       else true)
      && samples_while_enabled tr' level
  end.

(** The levels read from the data line in a run, in order. *)
Fixpoint data_samples (tr : list Event) : list bool :=
  match tr with
  | [] => []
  | Input pin v :: tr' =>
      if pin =? VIRTUAL_DATA_LINE then v :: data_samples tr'
      else data_samples tr'
  | Output _ _ :: tr' => data_samples tr'
  end.



(** Notify is raised and the sender then stays silent. *)
Definition silent_sender_line : Trace := [mkLevels true false false].

(** * Byte assembler *)

Lemma assemble_loop_app bits idx1 idx2 c :
  assemble_loop bits (idx1 ++ idx2) c =
  match assemble_loop bits idx1 c with
  | Ok c' => assemble_loop bits idx2 c'
  | Exc e => Exc e
  end.
Proof.
  revert c. induction idx1 as [|i idx1 IH]; intros c; simpl.
  - reflexivity.
  - destruct (getitem bits i); [apply IH | reflexivity].
Qed.

Lemma eight_bits (bits : list bool) :
  List.length bits = 8%nat ->
  exists b0 b1 b2 b3 b4 b5 b6 b7, bits = [b0; b1; b2; b3; b4; b5; b6; b7].
Proof.
  intros Hlen.
  do 8 (destruct bits as [|? bits]; [discriminate Hlen|]).
  destruct bits; [|discriminate Hlen].
  repeat eexists.
Qed.

Lemma getitem_firstn (bits : list bool) (n i : nat) :
  (i < n)%nat -> getitem (firstn n bits) i = getitem bits i.
Proof.
  intros Hi. unfold getitem.
  now rewrite nth_error_firstn, (proj2 (Nat.ltb_lt i n) Hi).
Qed.

Lemma assemble_loop_ext (l1 l2 : list bool) (idx : list nat) (c : Z) :
  (forall i, In i idx -> getitem l1 i = getitem l2 i) ->
  assemble_loop l1 idx c = assemble_loop l2 idx c.
Proof.
  revert c. induction idx as [|i idx IH]; intros c Hext; simpl.
  - reflexivity.
  - rewrite (Hext i (or_introl eq_refl)).
    destruct (getitem l2 i); [|reflexivity].
    apply IH. intros j Hj. apply Hext. now right.
Qed.

Lemma assemble_loop_in_range (bits : list bool) (idx : list nat) (c : Z) :
  (forall i, In i idx -> (i < List.length bits)%nat) ->
  exists c', assemble_loop bits idx c = Ok c'.
Proof.
  revert c. induction idx as [|i idx IH]; intros c Hin; simpl.
  - now exists c.
  - unfold getitem.
    destruct (nth_error bits i) as [b|] eqn:E.
    + apply IH. intros j Hj. apply Hin. now right.
    + apply nth_error_None in E.
      specialize (Hin i (or_introl eq_refl)). lia.
Qed.

Lemma assemble_loop_short (bits : list bool) :
  (List.length bits < 8)%nat ->
  assemble_loop bits (seq 0 8) 0 = Exc IndexError.
Proof.
  intros Hlen.
  replace 8%nat with (List.length bits + (8 - List.length bits))%nat by lia.
  rewrite seq_app, assemble_loop_app.
  destruct (assemble_loop_in_range bits (seq 0 (List.length bits)) 0) as [c' ->].
  { intros i Hi. apply in_seq in Hi. lia. }
  destruct (8 - List.length bits)%nat as [|k] eqn:E; [lia|].
  simpl. unfold getitem.
  now rewrite (proj2 (nth_error_None bits (List.length bits)) (Nat.le_refl _)).
Qed.

(** Every byte value, enumerated. *)
Lemma byte_roundtrip_table :
  forallb
    (fun n => match bool_arr_to_char (bits_of (Z.of_nat n)) with
              | Ok c => c =? Z.of_nat n
              | Exc _ => false
              end)
    (seq 0 256) = true.
Proof. vm_compute. reflexivity. Qed.

Lemma byte_roundtrip (n : nat) :
  (n < 256)%nat -> bool_arr_to_char (bits_of (Z.of_nat n)) = Ok (Z.of_nat n).
Proof.
  intros Hn.
  pose proof byte_roundtrip_table as T.
  rewrite forallb_forall in T.
  specialize (T n).
  destruct (bool_arr_to_char (bits_of (Z.of_nat n))) as [c|e].
  - f_equal. apply Z.eqb_eq, T, in_seq. lia.
  - discriminate T. apply in_seq. lia.
Qed.

(** C2: for every byte value [b] in 0..255, assembling the LSB-first
    decomposition of [b] into 8 bits gives [b] back. *)
Theorem bool_arr_to_char_bits_of (b : Z) :
  0 <= b < 256 -> bool_arr_to_char (bits_of b) = Ok b.
Proof.
  intros Hb.
  rewrite <- (Z2Nat.id b) by lia.
  apply byte_roundtrip.
  change 256%nat with (Z.to_nat 256). apply Z2Nat.inj_lt; lia.
Qed.

Lemma bool_arr_to_char_bits_of_witness :
  0 <= 104 < 256 /\ bool_arr_to_char (bits_of 104) = Ok 104.
Proof. split; [lia | apply (bool_arr_to_char_bits_of 104); lia]. Defined.

(** The decomposition is also a left inverse on sequences of 8 bits, so the
    assembler is a bijection between them and the byte values. *)
Lemma bits_of_weighted_sum (bits : list bool) :
  List.length bits = 8%nat -> bits_of (weighted_sum bits) = bits.
Proof.
  intros Hlen.
  destruct (eight_bits bits Hlen)
    as (b0 & b1 & b2 & b3 & b4 & b5 & b6 & b7 & ->).
  destruct b0, b1, b2, b3, b4, b5, b6, b7; reflexivity.
Qed.

(** C3: on a sequence of exactly 8 bits the assembler returns the character
    whose code point is the sum of [bit[i] * 2^i] over the indices 0..7,
    least-significant bit first; the value is a byte. *)
Theorem bool_arr_to_char_lsb_first (bits : list bool) :
  List.length bits = 8%nat ->
  bool_arr_to_char bits
  = Ok (fold_right Z.add 0
          (map (fun i => Z.b2z (nth i bits false) * 2 ^ Z.of_nat i) (seq 0 8)))
  /\ 0 <= weighted_sum bits < 256.
Proof.
  intros Hlen.
  destruct (eight_bits bits Hlen)
    as (b0 & b1 & b2 & b3 & b4 & b5 & b6 & b7 & ->).
  destruct b0, b1, b2, b3, b4, b5, b6, b7; vm_compute; intuition congruence.
Qed.

Lemma bool_arr_to_char_lsb_first_witness :
  List.length [false; false; false; true; false; true; true; false] = 8%nat
  /\ bool_arr_to_char [false; false; false; true; false; true; true; false]
     = Ok 104.
Proof.
  split; [reflexivity|].
  exact (proj1 (bool_arr_to_char_lsb_first
                  [false; false; false; true; false; true; true; false]
                  eq_refl)).
Defined.

(** C9: the assembler reads the indices 0..7 and nothing else. Two lists of
    at least 8 bits that agree on their first 8 elements give the same
    result, and a list of fewer than 8 bits raises [IndexError]. *)
Theorem bool_arr_to_char_indices :
  (forall l1 l2 : list bool,
      (8 <= List.length l1)%nat -> (8 <= List.length l2)%nat ->
      firstn 8 l1 = firstn 8 l2 ->
      bool_arr_to_char l1 = bool_arr_to_char l2)
  /\ (forall l : list bool,
      (List.length l < 8)%nat -> bool_arr_to_char l = Exc IndexError).
Proof.
  split.
  - intros l1 l2 _ _ Hfirst. unfold bool_arr_to_char.
    rewrite (assemble_loop_ext l1 (firstn 8 l1) (seq 0 8) 0),
            (assemble_loop_ext l2 (firstn 8 l2) (seq 0 8) 0), Hfirst.
    + reflexivity.
    + intros i Hi. apply in_seq in Hi. symmetry. apply getitem_firstn. lia.
    + intros i Hi. apply in_seq in Hi. symmetry. apply getitem_firstn. lia.
  - intros l Hlen. unfold bool_arr_to_char.
    now rewrite assemble_loop_short.
Qed.

Lemma bool_arr_to_char_indices_witness :
  bool_arr_to_char (bits_of 104 ++ [true; true]) = bool_arr_to_char (bits_of 104)
  /\ bool_arr_to_char [true; false; true] = Exc IndexError.
Proof.
  split.
  - apply (proj1 bool_arr_to_char_indices); simpl; try lia; reflexivity.
  - apply (proj2 bool_arr_to_char_indices); simpl; lia.
Defined.

(** * Runs of the receiver over any GPIO world *)

Section Runs.
Context {World : Type} `{Gpio World}.

Lemma bind_Ret {A B} (m : M World A) (f : A -> M World B) w b w2 t :
  bind m f w = Ret b w2 t ->
  exists a w1 t1 t2,
    m w = Ret a w1 t1 /\ f a w1 = Ret b w2 t2 /\ t = t1 ++ t2.
Proof.
  unfold bind. intros Hb.
  destruct (m w) as [a w1 t1| |]; try discriminate.
  destruct (f a w1) as [b' w2' t2| |] eqn:Ef; try discriminate.
  injection Hb as -> -> <-.
  now exists a, w1, t1, t2.
Qed.

Lemma bind_Ret_intro {A B} (m : M World A) (f : A -> M World B)
    w a w1 t1 b w2 t2 :
  m w = Ret a w1 t1 -> f a w1 = Ret b w2 t2 ->
  bind m f w = Ret b w2 (t1 ++ t2).
Proof. unfold bind. now intros -> ->. Qed.

(** ** More fuel never changes a finished run *)

Lemma approx_refl {A} (o : outcome World A) : approx o o.
Proof. now right. Qed.

Lemma approx_Ret {A} (o : outcome World A) a w t :
  approx (Ret a w t) o -> o = Ret a w t.
Proof. intros [E|E]; [discriminate E | now symmetry]. Qed.

Lemma bind_approx {A B} (m1 m2 : M World A) (f1 f2 : A -> M World B) w :
  approx (m1 w) (m2 w) ->
  (forall a w', approx (f1 a w') (f2 a w')) ->
  approx (bind m1 f1 w) (bind m2 f2 w).
Proof.
  unfold bind. intros [-> | ->] Hf; [now left|].
  destruct (m2 w) as [a w1 t1| |]; try apply approx_refl.
  destruct (Hf a w1) as [-> | ->]; [now left | apply approx_refl].
Qed.

Lemma poll_while_approx (fuel fuel' : nat) pin level w :
  (fuel <= fuel')%nat ->
  approx (poll_while fuel pin level w) (poll_while fuel' pin level w).
Proof.
  revert fuel' w. induction fuel as [|fuel IH]; intros fuel' w Hle.
  - now left.
  - destruct fuel' as [|fuel']; [lia|]. simpl.
    apply bind_approx; [apply approx_refl|].
    intros v w'. destruct (Bool.eqb v level); [|apply approx_refl].
    apply IH. lia.
Qed.

Lemma sample_bit_approx (fuel fuel' : nat) bits w :
  (fuel <= fuel')%nat ->
  approx (sample_bit fuel bits w) (sample_bit fuel' bits w).
Proof.
  intros Hle. unfold sample_bit.
  apply bind_approx; [apply approx_refl|]. intros _ w1.
  apply bind_approx; [now apply poll_while_approx|]. intros _ w2.
  apply bind_approx; [apply approx_refl|]. intros b w3.
  apply bind_approx; [apply approx_refl|]. intros _ w4.
  apply bind_approx; [now apply poll_while_approx|]. intros _ w5.
  apply approx_refl.
Qed.

Lemma for_range_approx (n : nat)
    (body body' : list bool -> M World (list bool)) bits w :
  (forall bs w', approx (body bs w') (body' bs w')) ->
  approx (for_range n body bits w) (for_range n body' bits w).
Proof.
  intros Hbody. revert bits w.
  induction n as [|n IH]; intros bits w; simpl.
  - apply approx_refl.
  - apply bind_approx; [apply Hbody | intros; apply IH].
Qed.

Lemma read_char_approx (fuel fuel' : nat) w :
  (fuel <= fuel')%nat ->
  approx (read_char fuel w) (read_char fuel' w).
Proof.
  intros Hle. unfold read_char.
  apply bind_approx; [|intros; apply approx_refl].
  apply for_range_approx. intros. now apply sample_bit_approx.
Qed.

Lemma read_loop_approx (iters iters' fuel fuel' : nat) received w :
  (iters <= iters')%nat -> (fuel <= fuel')%nat ->
  approx (read_loop iters fuel received w)
         (read_loop iters' fuel' received w).
Proof.
  revert iters' received w.
  induction iters as [|iters IH]; intros iters' received w Hi Hf.
  - now left.
  - destruct iters' as [|iters']; [lia|]. simpl.
    apply bind_approx; [now apply read_char_approx|].
    intros c w'. destruct (c =? 10); [apply approx_refl|].
    apply IH; lia.
Qed.

Lemma read_vuart_string_approx (fuel fuel' : nat) w :
  (fuel <= fuel')%nat ->
  approx (read_vuart_string fuel w) (read_vuart_string fuel' w).
Proof.
  intros Hle. unfold read_vuart_string, wait_for_notif.
  apply bind_approx; [now apply poll_while_approx|].
  intros _ w'. now apply read_loop_approx.
Qed.

End Runs.

(** Inverts a finished [bind]: the first run, the rest, and the split of the
    events. *)
Ltac inv_bind Hrun :=
  let a := fresh "a" in
  let w := fresh "w" in
  let t1 := fresh "t" in
  let t2 := fresh "t" in
  let H1 := fresh "Hstep" in
  let Et := fresh "Et" in
  apply bind_Ret in Hrun;
  destruct Hrun as (a & w & t1 & t2 & H1 & Hrun & Et).

(** * Busy waits *)

Section Waits.
Context {World : Type} `{Gpio World}.

Lemma poll_while_step (fuel : nat) pin level (w : World) :
  poll_while (S fuel) pin level w =
  if Bool.eqb (fst (gpio_input w pin)) level
  then match poll_while fuel pin level (snd (gpio_input w pin)) with
       | Ret u w' tr => Ret u w' (Input pin level :: tr)
       | Raise e => Raise e
       | Spin => Spin
       end
  else Ret tt (snd (gpio_input w pin)) [Input pin (negb level)].
Proof.
  simpl. unfold bind, GPIO_input.
  destruct (gpio_input w pin) as [v w1]. simpl.
  destruct (Bool.eqb v level) eqn:E.
  - apply Bool.eqb_prop in E. subst v.
    now destruct (poll_while fuel pin level w1).
  - unfold ret. simpl. do 2 f_equal.
    destruct v, level; simpl in *; congruence.
Qed.

Lemma poll_while_Ret (fuel : nat) pin level (w : World) u w' tr :
  poll_while fuel pin level w = Ret u w' tr ->
  exists k,
    (k < fuel)%nat
    /\ tr = repeat (Input pin level) k ++ [Input pin (negb level)]
    /\ w' = after_polls (S k) pin w
    /\ (forall i, (i < k)%nat -> poll_level i pin w = level)
    /\ poll_level k pin w = negb level.
Proof.
  revert w tr. induction fuel as [|fuel IH]; intros w tr Hrun.
  - discriminate Hrun.
  - rewrite poll_while_step in Hrun.
    destruct (Bool.eqb (fst (gpio_input w pin)) level) eqn:E.
    + destruct (poll_while fuel pin level (snd (gpio_input w pin)))
        as [u1 w1 tr1| |] eqn:Erec; try discriminate.
      injection Hrun as -> -> <-.
      destruct (IH _ _ Erec) as (k & Hk & -> & -> & Hlow & Hhit).
      exists (S k). repeat split; try assumption; try lia.
      intros [|i] Hi.
      * now apply Bool.eqb_prop in E.
      * apply Hlow. lia.
    + injection Hrun as _ <- <-.
      exists 0%nat. repeat split; try lia.
      unfold poll_level. simpl.
      destruct (fst (gpio_input w pin)), level; simpl in *; congruence.
Qed.

Lemma poll_while_never (fuel : nat) pin level (w : World) :
  (forall n, poll_level n pin w = level) ->
  poll_while fuel pin level w = Spin.
Proof.
  revert w. induction fuel as [|fuel IH]; intros w Hnever.
  - reflexivity.
  - rewrite poll_while_step.
    pose proof (Hnever 0%nat) as H0. unfold poll_level in H0. simpl in H0.
    rewrite H0, Bool.eqb_reflx.
    rewrite IH; [reflexivity|].
    intros n. exact (Hnever (S n)).
Qed.

Lemma poll_while_eventually (k : nat) pin level (w : World) :
  poll_level k pin w = negb level ->
  exists w' tr, poll_while (S k) pin level w = Ret tt w' tr.
Proof.
  revert w. induction k as [|k IH]; intros w Hhit;
    rewrite poll_while_step;
    destruct (Bool.eqb (fst (gpio_input w pin)) level) eqn:E;
    try (now eexists; eexists).
  - apply Bool.eqb_prop in E. unfold poll_level in Hhit. simpl in Hhit.
    destruct level; simpl in *; congruence.
  - destruct (IH (snd (gpio_input w pin)) Hhit) as (w' & tr & ->).
    now eexists; eexists.
Qed.

Lemma run_wait_poll_while (wt : Wait) (fuel : nat) :
  run_wait wt fuel
  = poll_while fuel (wait_line wt) (negb (wait_target wt)).
Proof. now destruct wt. Qed.

(** C7: a wait returns only after a poll that reads the target level, all
    its earlier polls having read the other level, and it does nothing but
    poll; on a world whose line never shows the target level the wait is
    still polling whatever fuel it is given; it does return once some
    poll reads the target level. *)
Theorem wait_blocks_until_target (wt : Wait) (w : World) :
  (forall fuel w' tr,
      run_wait wt fuel w = Ret tt w' tr ->
      exists k,
        tr = repeat (Input (wait_line wt) (negb (wait_target wt))) k
             ++ [Input (wait_line wt) (wait_target wt)]
        /\ w' = after_polls (S k) (wait_line wt) w
        /\ poll_level k (wait_line wt) w = wait_target wt)
  /\ ((forall n, poll_level n (wait_line wt) w = negb (wait_target wt)) ->
      forall fuel, run_wait wt fuel w = Spin)
  /\ (forall n, poll_level n (wait_line wt) w = wait_target wt ->
      exists w' tr, run_wait wt (S n) w = Ret tt w' tr).
Proof.
  split; [|split].
  - intros fuel w' tr Hrun. rewrite run_wait_poll_while in Hrun.
    destruct (poll_while_Ret _ _ _ _ _ _ _ Hrun)
      as (k & _ & Htr & Hw & _ & Hhit).
    rewrite Bool.negb_involutive in Htr, Hhit.
    now exists k.
  - intros Hnever fuel. rewrite run_wait_poll_while.
    now apply poll_while_never.
  - intros n Hhit. rewrite run_wait_poll_while.
    apply poll_while_eventually. now rewrite Bool.negb_involutive.
Qed.

(** C8: two runs of the reader over the same world give the same message
    (and leave the same world and the same events) whatever fuel each run
    was given. *)
Theorem read_vuart_string_deterministic (w : World) (fuel1 fuel2 : nat)
    (msg1 msg2 : str) (w1 w2 : World) (tr1 tr2 : list Event) :
  read_vuart_string fuel1 w = Ret msg1 w1 tr1 ->
  read_vuart_string fuel2 w = Ret msg2 w2 tr2 ->
  msg1 = msg2 /\ w1 = w2 /\ tr1 = tr2.
Proof.
  intros H1 H2.
  pose proof (read_vuart_string_approx fuel1 (Nat.max fuel1 fuel2) w
                (Nat.le_max_l _ _)) as A1.
  pose proof (read_vuart_string_approx fuel2 (Nat.max fuel1 fuel2) w
                (Nat.le_max_r _ _)) as A2.
  rewrite H1 in A1. rewrite H2 in A2.
  apply approx_Ret in A1. apply approx_Ret in A2.
  rewrite A1 in A2. now injection A2 as -> -> ->.
Qed.

End Waits.

(** * The per-bit handshake *)

Lemma enable_level_app (t1 t2 : list Event) (last : option bool) :
  enable_level (t1 ++ t2) last = enable_level t2 (enable_level t1 last).
Proof.
  revert last. induction t1 as [|e t1 IH]; intros last; simpl.
  - reflexivity.
  - destruct e; apply IH.
Qed.

Lemma enable_level_polls (pin : Z) (v : bool) (k : nat) (last : option bool) :
  enable_level (repeat (Input pin v) k) last = last.
Proof. induction k as [|k IH]; simpl; [reflexivity | exact IH]. Qed.

Lemma bit_handshake_enable_level (b : bool) (tr : list Event) last :
  bit_handshake b tr -> enable_level tr last = Some GPIO_LOW.
Proof.
  intros [k1 k2].
  repeat (rewrite enable_level_app || rewrite enable_level_polls).
  reflexivity.
Qed.

Lemma bit_handshake_requests (b : bool) (tr : list Event) :
  bit_handshake b tr ->
  count_occ Event_eq_dec tr (Output VIRTUAL_ENABLE_LINE GPIO_HIGH) = 1%nat.
Proof.
  intros [k1 k2].
  repeat rewrite count_occ_app.
  rewrite !count_occ_repeat_neq by discriminate.
  destruct b; reflexivity.
Qed.

Lemma handshakes_requests (bits : list bool) (hs : list (list Event)) :
  Forall2 bit_handshake bits hs ->
  count_occ Event_eq_dec (concat hs) (Output VIRTUAL_ENABLE_LINE GPIO_HIGH)
  = List.length bits.
Proof.
  induction 1 as [|b h bits hs Hh _ IH]; simpl.
  - reflexivity.
  - now rewrite count_occ_app, (bit_handshake_requests b h Hh), IH.
Qed.

Lemma handshakes_enable_level (bits : list bool) (hs : list (list Event)) last :
  Forall2 bit_handshake bits hs -> bits <> [] ->
  enable_level (concat hs) last = Some GPIO_LOW.
Proof.
  intros Hall. revert last.
  induction Hall as [|b h bits hs Hh Hall IH]; intros last Hne.
  - congruence.
  - simpl. rewrite enable_level_app.
    rewrite (bit_handshake_enable_level b h last Hh).
    destruct Hall as [|b' h' bits' hs' Hh' Hall'].
    + reflexivity.
    + apply IH. discriminate.
Qed.

Section Handshake.
Context {World : Type} `{Gpio World}.

Lemma sample_bit_Ret (fuel : nat) (bits bits' : list bool)
    (w w' : World) (tr : list Event) :
  sample_bit fuel bits w = Ret bits' w' tr ->
  exists b, bits' = bits ++ [b] /\ bit_handshake b tr.
Proof.
  unfold sample_bit, enable, disable, read, wait_for_clock_high,
    wait_for_clock_low.
  intros Hrun.
  inv_bind Hrun. injection Hstep as _ <- <-.
  inv_bind Hrun.
  apply poll_while_Ret in Hstep.
  destruct Hstep as (k1 & _ & -> & -> & _ & _).
  inv_bind Hrun.
  inv_bind Hstep. unfold GPIO_input in Hstep0.
  destruct (gpio_input _ VIRTUAL_DATA_LINE) as [v wd].
  injection Hstep0 as <- <- <-. injection Hstep as <- <- <-.
  inv_bind Hrun. injection Hstep as _ <- <-.
  inv_bind Hrun.
  apply poll_while_Ret in Hstep.
  destruct Hstep as (k2 & _ & -> & -> & _ & _).
  injection Hrun as <- _ <-.
  exists v. subst.
  replace (Bool.eqb v GPIO_HIGH) with v by now destruct v.
  split; [reflexivity|].
  rewrite ?app_nil_r, <- ?app_assoc.
  exact (bit_handshake_intro v k1 k2).
Qed.

Lemma for_range_sample_bit_Ret (n fuel : nat) (bits bits' : list bool)
    (w w' : World) (tr : list Event) :
  for_range n (sample_bit fuel) bits w = Ret bits' w' tr ->
  exists bs hs,
    List.length bs = n /\ bits' = bits ++ bs
    /\ Forall2 bit_handshake bs hs /\ tr = concat hs.
Proof.
  revert bits w tr. induction n as [|n IH]; intros bits w tr Hrun.
  - injection Hrun as <- _ <-.
    exists [], []. now rewrite app_nil_r.
  - simpl in Hrun. inv_bind Hrun.
    apply sample_bit_Ret in Hstep. destruct Hstep as (b & -> & Hh).
    apply IH in Hrun. destruct Hrun as (bs & hs & Hlen & -> & Hall & ->).
    exists (b :: bs), (t :: hs). subst tr. simpl.
    rewrite <- app_assoc. repeat split; auto.
Qed.

Lemma read_char_Ret (fuel : nat) (w w' : World) (c : Z) (tr : list Event) :
  read_char fuel w = Ret c w' tr ->
  exists bits hs,
    List.length bits = 8%nat
    /\ Forall2 bit_handshake bits hs
    /\ tr = concat hs
    /\ bool_arr_to_char bits = Ok c.
Proof.
  unfold read_char. intros Hrun. inv_bind Hrun.
  apply for_range_sample_bit_Ret in Hstep.
  destruct Hstep as (bs & hs & Hlen & -> & Hall & ->).
  simpl in Hrun. unfold lift in Hrun.
  destruct (bool_arr_to_char bs) as [c'|e] eqn:Ec; [|discriminate].
  injection Hrun as <- _ <-. subst tr.
  exists bs, hs. now rewrite app_nil_r.
Qed.

(** C1: every character is read by exactly 8 handshakes, one per bit; each
    handshake writes Enable high, polls the clock until it reads high,
    samples the data line, writes Enable low and polls the clock until it
    reads low, and nothing else happens on the lines. Enable is raised 8
    times per character. *)
Theorem read_char_eight_handshakes (fuel : nat) (w w' : World) (c : Z)
    (tr : list Event) :
  read_char fuel w = Ret c w' tr ->
  exists (bits : list bool) (hs : list (list Event)),
    List.length bits = 8%nat
    /\ List.length hs = 8%nat
    /\ Forall2 bit_handshake bits hs
    /\ tr = concat hs
    /\ bool_arr_to_char bits = Ok c
    /\ count_occ Event_eq_dec tr (Output VIRTUAL_ENABLE_LINE GPIO_HIGH)
       = 8%nat.
Proof.
  intros Hrun.
  destruct (read_char_Ret _ _ _ _ _ Hrun) as (bits & hs & Hlen & Hall & -> & Hc).
  exists bits, hs. repeat split; try assumption.
  - now rewrite <- (Forall2_length Hall).
  - now rewrite (handshakes_requests bits hs Hall).
Qed.

End Handshake.

(** * The message reader *)

Section Reader.
Context {World : Type} `{Gpio World}.

Lemma read_chars_S (n fuel : nat) (w w1 w' : World) c cs t1 t2 :
  read_char fuel w = Ret c w1 t1 ->
  read_chars n fuel w1 = Ret cs w' t2 ->
  read_chars (S n) fuel w = Ret (c :: cs) w' (t1 ++ t2).
Proof.
  intros Hc Hcs. simpl.
  rewrite (bind_Ret_intro _ _ w c w1 t1 (c :: cs) w' (t2 ++ [])).
  - now rewrite app_nil_r.
  - exact Hc.
  - apply (bind_Ret_intro _ _ w1 cs w' t2 (c :: cs) w' []);
      [exact Hcs | reflexivity].
Qed.

Lemma read_chars_S_Ret (n fuel : nat) (w w' : World) cs tr :
  read_chars (S n) fuel w = Ret cs w' tr ->
  exists c cs' w1 t1 t2,
    read_char fuel w = Ret c w1 t1
    /\ read_chars n fuel w1 = Ret cs' w' t2
    /\ cs = c :: cs' /\ tr = t1 ++ t2.
Proof.
  simpl. intros Hrun. inv_bind Hrun. inv_bind Hrun.
  injection Hrun as <- <- <-.
  exists a, a0, w0, t, t1. subst. now rewrite app_nil_r.
Qed.

Lemma read_loop_Ret (iters fuel : nat) (received : str) (w w' : World)
    (msg : str) (tr : list Event) :
  read_loop iters fuel received w = Ret msg w' tr ->
  exists cs,
    msg = received ++ cs
    /\ ~ In 10 cs
    /\ read_chars (S (List.length cs)) fuel w = Ret (cs ++ [10]) w' tr.
Proof.
  revert received w tr.
  induction iters as [|iters IH]; intros received w tr Hrun.
  - discriminate Hrun.
  - simpl in Hrun. inv_bind Hrun.
    destruct (a =? 10) eqn:E.
    + apply Z.eqb_eq in E. subst a.
      injection Hrun as <- <- <-.
      exists []. rewrite app_nil_r. repeat split; [now intros []|].
      subst tr.
      apply (read_chars_S 0 fuel w w0 w0 10 [] t []);
        [exact Hstep | reflexivity].
    + apply Z.eqb_neq in E.
      apply IH in Hrun. destruct Hrun as (cs & -> & Hnl & Hcs).
      exists (a :: cs). rewrite <- app_assoc. repeat split.
      * intros [Ha|Hin]; [now apply E | now apply Hnl].
      * subst tr. now apply (read_chars_S _ fuel w w0 w').
Qed.

Lemma read_chars_enable_level (n fuel : nat) (w w' : World) cs tr last :
  read_chars (S n) fuel w = Ret cs w' tr ->
  enable_level tr last = Some GPIO_LOW.
Proof.
  revert w cs tr last. induction n as [|n IH]; intros w cs tr last Hrun;
    apply read_chars_S_Ret in Hrun;
    destruct Hrun as (c & cs' & w1 & t1 & t2 & Hc & Hcs & -> & ->);
    rewrite enable_level_app.
  - injection Hcs as _ _ <-. simpl.
    apply read_char_Ret in Hc.
    destruct Hc as (bits & hs & Hlen & Hall & -> & _).
    apply (handshakes_enable_level bits hs last Hall).
    intros ->. discriminate Hlen.
  - now apply (IH w1 cs' t2).
Qed.

Lemma read_vuart_string_Ret (fuel : nat) (w w' : World)
    (msg : str) (tr : list Event) :
  read_vuart_string fuel w = Ret msg w' tr ->
  exists w1 t0 t1,
    wait_for_notif fuel w = Ret tt w1 t0
    /\ read_loop fuel fuel [] w1 = Ret msg w' t1
    /\ tr = t0 ++ t1.
Proof.
  unfold read_vuart_string. intros Hrun. inv_bind Hrun.
  destruct a. now exists w0, t, t0.
Qed.

(** C4: a message the reader returns holds no line feed. The characters
    assembled after the notify wait are the message followed by one line
    feed, which ends the run and is left out. *)
Theorem read_vuart_string_stops_at_line_feed (fuel : nat) (w w' : World)
    (msg : str) (tr : list Event) :
  read_vuart_string fuel w = Ret msg w' tr ->
  ~ In 10 msg
  /\ exists w1 t0 t1,
      wait_for_notif fuel w = Ret tt w1 t0
      /\ read_chars (S (List.length msg)) fuel w1 = Ret (msg ++ [10]) w' t1
      /\ tr = t0 ++ t1.
Proof.
  intros Hrun.
  apply read_vuart_string_Ret in Hrun.
  destruct Hrun as (w1 & t0 & t1 & Hwait & Hloop & ->).
  apply read_loop_Ret in Hloop. destruct Hloop as (cs & -> & Hnl & Hcs).
  simpl in *. split; [exact Hnl|].
  now exists w1, t0, t1.
Qed.

(** C10: Enable is low when a bit sample completes, when a character has
    been read and when the reader returns, whatever its level was before;
    within a handshake the write that lowers Enable comes before the polls
    that wait for the clock to return low. *)
Theorem enable_low_after_read :
  (forall fuel bits (w : World) bits' w' tr last,
      sample_bit fuel bits w = Ret bits' w' tr ->
      (exists b, bit_handshake b tr)
      /\ enable_level tr last = Some GPIO_LOW)
  /\ (forall fuel (w : World) c w' tr last,
      read_char fuel w = Ret c w' tr ->
      enable_level tr last = Some GPIO_LOW)
  /\ (forall fuel (w : World) msg w' tr last,
      read_vuart_string fuel w = Ret msg w' tr ->
      enable_level tr last = Some GPIO_LOW).
Proof.
  split; [|split].
  - intros fuel bits w bits' w' tr last Hrun.
    apply sample_bit_Ret in Hrun. destruct Hrun as (b & _ & Hh).
    split; [now exists b | now apply (bit_handshake_enable_level b)].
  - intros fuel w c w' tr last Hrun.
    apply read_char_Ret in Hrun.
    destruct Hrun as (bits & hs & Hlen & Hall & -> & _).
    apply (handshakes_enable_level bits hs last Hall).
    intros ->. discriminate Hlen.
  - intros fuel w msg w' tr last Hrun.
    apply read_vuart_string_Ret in Hrun.
    destruct Hrun as (w1 & t0 & t1 & _ & Hloop & ->).
    apply read_loop_Ret in Hloop. destruct Hloop as (cs & _ & _ & Hcs).
    rewrite enable_level_app.
    now apply (read_chars_enable_level _ _ _ _ _ _ _ Hcs).
Qed.

End Reader.

(** * Decoding a simulated line sequence *)

Lemma returns_bind {World A B} (m : M World A) (f : A -> M World B)
    (w w1 w2 : World) (a : A) (b : B) :
  returns m w a w1 -> returns (f a) w1 b w2 -> returns (bind m f) w b w2.
Proof.
  intros [t1 H1] [t2 H2]. exists (t1 ++ t2). now apply (bind_Ret_intro _ _ w a w1).
Qed.

Lemma returns_ret {World A} (a : A) (w : World) : returns (ret a) w a w.
Proof. now exists []. Qed.

Lemma settles_nonempty pin target (tr : Trace) :
  settles pin target tr -> (1 <= List.length tr)%nat.
Proof. intros [s _|s tr' _ _]; simpl; lia. Qed.

Lemma carries_bit_length (b : bool) (tr : Trace) :
  carries_bit b tr -> (3 <= List.length tr)%nat.
Proof.
  intros [up d down Hup _ Hdown].
  apply settles_nonempty in Hup, Hdown.
  rewrite length_app. simpl. lia.
Qed.

Lemma carries_bits_length (bs : list bool) (tr : Trace) :
  carries_bits bs tr -> (3 * List.length bs <= List.length tr)%nat.
Proof.
  induction 1 as [|b bs t ts Hb _ IH]; simpl; [lia|].
  apply carries_bit_length in Hb. rewrite length_app. lia.
Qed.

Lemma carries_bytes_length (cs : list Z) (tr : Trace) :
  carries_bytes cs tr -> (List.length cs <= List.length tr)%nat.
Proof.
  induction 1 as [|c cs t ts _ Hc _ IH]; simpl; [lia|].
  apply carries_bits_length in Hc. unfold bits_of in Hc.
  rewrite length_map, length_seq in Hc. rewrite length_app. lia.
Qed.

Lemma poll_while_settles (pin : Z) (target : bool) (tr rest : Trace)
    (fuel : nat) :
  settles pin target tr -> (List.length tr <= fuel)%nat ->
  returns (poll_while fuel pin (negb target)) (tr ++ rest) tt rest.
Proof.
  intros Hs. revert fuel.
  induction Hs as [s Hlevel|s tr Hlevel _ IH]; intros fuel Hfuel;
    (destruct fuel as [|fuel]; [simpl in Hfuel; lia|]);
    unfold returns; rewrite poll_while_step; simpl; rewrite Hlevel.
  - rewrite Bool.eqb_negb2. now eexists.
  - rewrite Bool.eqb_reflx.
    destruct (IH fuel) as [t Ht]; [simpl in Hfuel; lia|].
    rewrite Ht. now eexists.
Qed.

Lemma sample_bit_carries (b : bool) (tr rest : Trace) (fuel : nat)
    (bits : list bool) :
  carries_bit b tr -> (List.length tr <= fuel)%nat ->
  returns (sample_bit fuel bits) (tr ++ rest) (bits ++ [b]) rest.
Proof.
  intros [up d down Hup Hd Hdown] Hfuel.
  rewrite length_app in Hfuel. simpl in Hfuel.
  rewrite <- app_assoc. simpl.
  unfold sample_bit.
  apply (returns_bind _ _ _ (up ++ d :: down ++ rest) _ tt);
    [now eexists|].
  apply (returns_bind _ _ _ (d :: down ++ rest) _ tt).
  { apply (poll_while_settles _ GPIO_HIGH); [exact Hup | lia]. }
  apply (returns_bind _ _ _ (down ++ rest) _ b).
  { exists ([Input VIRTUAL_DATA_LINE b] ++ []).
    unfold read, bind, GPIO_input, ret. simpl. rewrite Hd.
    now destruct b. }
  apply (returns_bind _ _ _ (down ++ rest) _ tt); [now eexists|].
  apply (returns_bind _ _ _ rest _ tt).
  { apply (poll_while_settles _ GPIO_LOW); [exact Hdown | lia]. }
  apply returns_ret.
Qed.

Lemma for_range_carries (bs : list bool) (tr rest : Trace) (fuel : nat)
    (bits : list bool) :
  carries_bits bs tr -> (List.length tr <= fuel)%nat ->
  returns (for_range (List.length bs) (sample_bit fuel) bits)
          (tr ++ rest) (bits ++ bs) rest.
Proof.
  intros Hbs. revert bits.
  induction Hbs as [|b bs t ts Hb _ IH]; intros bits Hfuel; simpl.
  - rewrite app_nil_r. apply returns_ret.
  - rewrite length_app in Hfuel. rewrite <- app_assoc.
    apply (returns_bind _ _ _ (ts ++ rest) _ (bits ++ [b])).
    + apply sample_bit_carries; [exact Hb | lia].
    + replace (bits ++ b :: bs) with ((bits ++ [b]) ++ bs)
        by now rewrite <- app_assoc.
      apply IH. lia.
Qed.

Lemma read_char_carries (c : Z) (tr rest : Trace) (fuel : nat) :
  0 <= c < 256 -> carries_byte c tr -> (List.length tr <= fuel)%nat ->
  returns (read_char fuel) (tr ++ rest) c rest.
Proof.
  intros Hc Hbyte Hfuel. unfold read_char.
  apply (returns_bind _ _ _ rest _ (bits_of c)).
  - exact (for_range_carries (bits_of c) tr rest fuel [] Hbyte Hfuel).
  - exists []. unfold lift.
    rewrite <- (Z2Nat.id c) by lia.
    rewrite byte_roundtrip; [reflexivity|].
    change 256%nat with (Z.to_nat 256). apply Z2Nat.inj_lt; lia.
Qed.

Lemma read_loop_carries (msg : list Z) (tr rest : Trace)
    (iters fuel : nat) (received : str) :
  carries_bytes (msg ++ [10]) tr -> ~ In 10 msg ->
  (List.length tr <= fuel)%nat -> (List.length msg < iters)%nat ->
  returns (read_loop iters fuel received) (tr ++ rest) (received ++ msg) rest.
Proof.
  revert tr iters received.
  induction msg as [|c msg IH]; intros tr iters received Hbytes Hnl Hfuel Hit;
    (destruct iters as [|iters]; [simpl in Hit; lia|]);
    inversion Hbytes as [|c' cs t ts Hc Hbyte Hrest Ecs Etr]; subst;
    rewrite length_app in Hfuel; rewrite <- app_assoc; simpl.
  - apply (returns_bind _ _ _ (ts ++ rest) _ 10).
    + apply read_char_carries; [lia | exact Hbyte | lia].
    + inversion Hrest; subst. simpl. rewrite app_nil_r. apply returns_ret.
  - apply (returns_bind _ _ _ (ts ++ rest) _ c).
    + apply read_char_carries; [exact Hc | exact Hbyte | lia].
    + destruct (c =? 10) eqn:E.
      * apply Z.eqb_eq in E. exfalso. apply Hnl. now left.
      * replace (received ++ c :: msg) with ((received ++ [c]) ++ msg)
          by now rewrite <- app_assoc.
        apply IH; [exact Hrest | | lia | simpl in Hit; lia].
        intros Hin. apply Hnl. now right.
Qed.

(** A raised notify line followed by the bytes of [msg] and a line feed is
    decoded as [msg], and what follows on the lines is left unread. *)
Lemma read_vuart_string_decodes (msg : list Z) (pulse tr rest : Trace)
    (fuel : nat) :
  settles VIRTUAL_NOTIFY_LINE GPIO_HIGH pulse ->
  carries_bytes (msg ++ [10]) tr -> ~ In 10 msg ->
  (List.length pulse + List.length tr <= fuel)%nat ->
  returns (read_vuart_string fuel) (pulse ++ tr ++ rest) msg rest.
Proof.
  intros Hpulse Hbytes Hnl Hfuel. unfold read_vuart_string.
  pose proof (carries_bytes_length _ _ Hbytes) as Hlen.
  rewrite length_app in Hlen. simpl in Hlen.
  apply (returns_bind _ _ _ (tr ++ rest) _ tt).
  - apply (poll_while_settles _ GPIO_HIGH); [exact Hpulse | lia].
  - apply (read_loop_carries msg tr rest fuel fuel []); try assumption; lia.
Qed.

(** ** What the simulated sender puts on the lines *)

Lemma settles_repeat (pin : Z) (target : bool) (s s' : Levels) (k : nat) :
  level_of s pin = negb target -> level_of s' pin = target ->
  settles pin target (repeat s k ++ [s']).
Proof.
  intros Hs Hs'. induction k as [|k IH]; simpl.
  - now apply settles_now.
  - now apply settles_later.
Qed.

Lemma send_bit_carries (setup hold : nat) (b : bool) :
  carries_bit b (send_bit setup hold b).
Proof.
  unfold send_bit. simpl.
  change (repeat (mkLevels false b false) setup
          ++ mkLevels false b true :: mkLevels false b true
             :: repeat (mkLevels false b true) hold ++ [mkLevels false b false])
    with (repeat (mkLevels false b false) setup
          ++ [mkLevels false b true]
          ++ mkLevels false b true
             :: (repeat (mkLevels false b true) hold ++ [mkLevels false b false])).
  rewrite app_assoc.
  apply carries_bit_intro.
  - now apply settles_repeat.
  - reflexivity.
  - now apply settles_repeat.
Qed.

Lemma send_bits_carries (setup hold : nat) (bs : list bool) :
  carries_bits bs (flat_map (send_bit setup hold) bs).
Proof.
  induction bs as [|b bs IH]; simpl.
  - apply carries_bits_nil.
  - apply carries_bits_cons; [apply send_bit_carries | exact IH].
Qed.

Lemma send_byte_carries (setup hold : nat) (c : Z) :
  carries_byte c (send_byte setup hold c).
Proof. apply send_bits_carries. Qed.

Lemma send_bytes_carries (setup hold : nat) (cs : list Z) :
  Forall (fun c => 0 <= c < 256) cs ->
  carries_bytes cs (flat_map (send_byte setup hold) cs).
Proof.
  induction 1 as [|c cs Hc _ IH]; simpl.
  - apply carries_bytes_nil.
  - apply carries_bytes_cons; [exact Hc | apply send_byte_carries | exact IH].
Qed.

(** C5: when the sender raises Notify and then transmits 0x68, 0x69 and 0x0A,
    each as 8 bits LSB first over the enable/clock handshake, the reader
    returns the string "hi"; this holds whatever the delays of the sender. *)
Theorem read_vuart_string_hi (idle setup hold : nat) :
  exists fuel tr,
    read_vuart_string fuel (send_message idle setup hold [0x68; 0x69; 0x0A])
    = Ret (str_of_string "hi") [] tr.
Proof.
  set (pulse := repeat (mkLevels false false false) idle
                ++ [mkLevels true false false]).
  set (frames := flat_map (send_byte setup hold) [0x68; 0x69; 0x0A]).
  exists (List.length pulse + List.length frames)%nat.
  replace (send_message idle setup hold [0x68; 0x69; 0x0A])
    with (pulse ++ frames ++ []).
  - apply (read_vuart_string_decodes [0x68; 0x69] pulse frames []).
    + now apply settles_repeat.
    + apply (send_bytes_carries setup hold [0x68; 0x69; 0x0A]).
      repeat constructor; lia.
    + simpl. intros [E|[E|[]]]; discriminate E.
    + apply Nat.le_refl.
  - unfold send_message, pulse, frames.
    now rewrite app_nil_r, <- app_assoc.
Qed.

(** C6: when the first byte transmitted after the notify pulse is a line
    feed, the reader returns the empty message, whatever follows on the
    lines. *)
Theorem read_vuart_string_line_feed_first (pulse frame rest : Trace)
    (fuel : nat) :
  settles VIRTUAL_NOTIFY_LINE GPIO_HIGH pulse ->
  carries_byte 0x0A frame ->
  (List.length pulse + List.length frame <= fuel)%nat ->
  exists tr, read_vuart_string fuel (pulse ++ frame ++ rest) = Ret [] rest tr.
Proof.
  intros Hpulse Hframe Hfuel.
  apply (read_vuart_string_decodes [] pulse frame rest fuel Hpulse).
  - rewrite <- (app_nil_r frame).
    apply carries_bytes_cons; [lia | exact Hframe | apply carries_bytes_nil].
  - now intros [].
  - exact Hfuel.
Qed.

Lemma read_vuart_string_line_feed_first_witness :
  exists tr,
    read_vuart_string 40
      ([mkLevels false false true; mkLevels true false false]
       ++ send_byte 1 0 0x0A ++ [mkLevels true true true])
    = Ret [] [mkLevels true true true] tr.
Proof.
  apply (read_vuart_string_line_feed_first
           [mkLevels false false true; mkLevels true false false]
           (send_byte 1 0 0x0A) [mkLevels true true true] 40).
  - apply settles_later; [reflexivity|]. apply settles_now. reflexivity.
  - apply send_byte_carries.
  - simpl. lia.
Defined.

(** * The theorems on sample runs *)

Lemma idle_line_reads_low (n : nat) (pin : Z) :
  poll_level n pin ([] : Trace) = false.
Proof.
  unfold poll_level.
  assert (E : after_polls n pin ([] : Trace) = []) by (induction n; auto).
  now rewrite E.
Qed.

Lemma read_char_eight_handshakes_witness :
  read_char 1 letter_h_line = Ret 0x68 [] letter_h_events
  /\ exists (bits : list bool) (hs : list (list Event)),
      List.length bits = 8%nat
      /\ List.length hs = 8%nat
      /\ Forall2 bit_handshake bits hs
      /\ letter_h_events = concat hs
      /\ bool_arr_to_char bits = Ok 0x68
      /\ count_occ Event_eq_dec letter_h_events
           (Output VIRTUAL_ENABLE_LINE GPIO_HIGH) = 8%nat.
Proof.
  assert (E : read_char 1 letter_h_line = Ret 0x68 [] letter_h_events)
    by reflexivity.
  split; [exact E|].
  exact (read_char_eight_handshakes 1 letter_h_line [] 0x68 letter_h_events E).
Defined.

Lemma read_vuart_string_stops_at_line_feed_witness :
  read_vuart_string 2 h_line = Ret [0x68] [] h_line_events
  /\ ~ In 10 [0x68]
  /\ exists w1 t0 t1,
      wait_for_notif 2 h_line = Ret tt w1 t0
      /\ read_chars 2 2 w1 = Ret [0x68; 10] [] t1
      /\ h_line_events = t0 ++ t1.
Proof.
  assert (E : read_vuart_string 2 h_line = Ret [0x68] [] h_line_events)
    by reflexivity.
  split; [exact E|].
  exact (read_vuart_string_stops_at_line_feed 2 h_line [] [0x68]
           h_line_events E).
Defined.

Lemma wait_blocks_until_target_witness :
  (exists k,
      [Input VIRTUAL_NOTIFY_LINE false; Input VIRTUAL_NOTIFY_LINE true]
      = repeat (Input VIRTUAL_NOTIFY_LINE false) k
        ++ [Input VIRTUAL_NOTIFY_LINE true]
      /\ skipn 2 h_line = after_polls (S k) VIRTUAL_NOTIFY_LINE h_line
      /\ poll_level k VIRTUAL_NOTIFY_LINE h_line = true)
  /\ (forall fuel, run_wait WaitNotif fuel ([] : Trace) = Spin)
  /\ (exists w' tr, run_wait WaitNotif 2 h_line = Ret tt w' tr).
Proof.
  split; [|split].
  - apply (proj1 (wait_blocks_until_target WaitNotif h_line) 2%nat
             (skipn 2 h_line)
             [Input VIRTUAL_NOTIFY_LINE false; Input VIRTUAL_NOTIFY_LINE true]).
    reflexivity.
  - apply (proj1 (proj2 (wait_blocks_until_target WaitNotif ([] : Trace)))).
    intros n. apply idle_line_reads_low.
  - apply (proj2 (proj2 (wait_blocks_until_target WaitNotif h_line)) 1%nat).
    reflexivity.
Defined.

Lemma read_vuart_string_deterministic_witness :
  read_vuart_string 2 h_line = Ret [0x68] [] h_line_events
  /\ read_vuart_string 9 h_line = Ret [0x68] [] h_line_events
  /\ ([0x68] = [0x68] /\ ([] : Trace) = [] /\ h_line_events = h_line_events).
Proof.
  assert (E2 : read_vuart_string 2 h_line = Ret [0x68] [] h_line_events)
    by reflexivity.
  assert (E9 : read_vuart_string 9 h_line = Ret [0x68] [] h_line_events)
    by reflexivity.
  split; [exact E2 | split; [exact E9|]].
  exact (read_vuart_string_deterministic h_line 2 9 [0x68] [0x68] [] []
           h_line_events h_line_events E2 E9).
Defined.

Lemma enable_low_after_read_witness :
  ((exists b, bit_handshake b one_bit_events)
   /\ enable_level one_bit_events (Some true) = Some GPIO_LOW)
  /\ enable_level letter_h_events None = Some GPIO_LOW
  /\ enable_level h_line_events None = Some GPIO_LOW.
Proof.
  destruct (@enable_low_after_read Trace TraceGpio) as (Hbit & Hchar & Hmsg).
  split; [|split].
  - apply (Hbit 1%nat [] one_bit_line [true] [] one_bit_events (Some true)).
    reflexivity.
  - apply (Hchar 1%nat letter_h_line 0x68 [] letter_h_events None).
    reflexivity.
  - apply (Hmsg 2%nat h_line [0x68] [] h_line_events None).
    reflexivity.
Defined.

(** * More on the byte assembler *)

Lemma eight_bits_assemble (bits : list bool) :
  List.length bits = 8%nat ->
  bool_arr_to_char bits = Ok (weighted_sum bits)
  /\ 0 <= weighted_sum bits < 256.
Proof.
  intros Hlen.
  destruct (eight_bits bits Hlen)
    as (b0 & b1 & b2 & b3 & b4 & b5 & b6 & b7 & ->).
  destruct b0, b1, b2, b3, b4, b5, b6, b7; vm_compute; intuition congruence.
Qed.

Lemma bool_arr_to_char_firstn (bits : list bool) :
  bool_arr_to_char bits = bool_arr_to_char (firstn 8 bits).
Proof.
  unfold bool_arr_to_char.
  rewrite (assemble_loop_ext bits (firstn 8 bits) (seq 0 8) 0); [reflexivity|].
  intros i Hi. apply in_seq in Hi. symmetry. apply getitem_firstn. lia.
Qed.

Lemma weighted_sum_firstn (bits : list bool) :
  weighted_sum (firstn 8 bits) = weighted_sum bits.
Proof.
  unfold weighted_sum. f_equal. apply map_ext_in.
  intros i Hi. apply in_seq in Hi.
  rewrite nth_firstn.
  now replace (i <? 8)%nat with true by (symmetry; apply Nat.ltb_lt; lia).
Qed.

(** X1: the assembler either returns a byte or raises [IndexError]. With at
    least 8 bits it returns the weighted sum of the first 8, a value in
    0..255; an exception is always [IndexError], on fewer than 8 bits, and
    [chr] never fails. *)
Theorem bool_arr_to_char_byte_or_index_error (bits : list bool) :
  ((8 <= List.length bits)%nat ->
   bool_arr_to_char bits = Ok (weighted_sum bits)
   /\ 0 <= weighted_sum bits < 256)
  /\ (forall e, bool_arr_to_char bits = Exc e ->
                e = IndexError /\ (List.length bits < 8)%nat).
Proof.
  assert (Hlong : (8 <= List.length bits)%nat ->
                  bool_arr_to_char bits = Ok (weighted_sum bits)
                  /\ 0 <= weighted_sum bits < 256).
  { intros Hlen.
    rewrite bool_arr_to_char_firstn, <- weighted_sum_firstn.
    apply eight_bits_assemble. rewrite length_firstn. lia. }
  split; [exact Hlong|].
  intros e He.
  destruct (Nat.lt_ge_cases (List.length bits) 8) as [Hshort|Hlen].
  - unfold bool_arr_to_char in He.
    rewrite (assemble_loop_short bits Hshort) in He.
    injection He as <-. now split.
  - destruct (Hlong Hlen) as [E _]. congruence.
Qed.

Lemma bool_arr_to_char_byte_or_index_error_witness :
  (bool_arr_to_char (bits_of 0x69 ++ [true]) = Ok 0x69 /\ 0 <= 0x69 < 256)
  /\ (IndexError = IndexError /\ (List.length [true; true] < 8)%nat).
Proof.
  split.
  - apply (proj1 (bool_arr_to_char_byte_or_index_error (bits_of 0x69 ++ [true]))).
    simpl. lia.
  - apply (proj2 (bool_arr_to_char_byte_or_index_error [true; true])).
    reflexivity.
Defined.

(** X2: on sequences of 8 bits the assembler loses nothing: the LSB-first
    bits of the character it returns are the bits it was given, so two
    different sequences never give the same character. *)
Theorem bool_arr_to_char_injective (bits1 bits2 : list bool) (c : Z) :
  List.length bits1 = 8%nat -> List.length bits2 = 8%nat ->
  bool_arr_to_char bits1 = Ok c -> bool_arr_to_char bits2 = Ok c ->
  bits_of c = bits1 /\ bits1 = bits2.
Proof.
  intros Hlen1 Hlen2 E1 E2.
  destruct (eight_bits_assemble bits1 Hlen1) as [S1 _].
  destruct (eight_bits_assemble bits2 Hlen2) as [S2 _].
  rewrite E1 in S1. rewrite E2 in S2.
  injection S1 as S1. injection S2 as S2.
  pose proof (bits_of_weighted_sum bits1 Hlen1) as I1.
  pose proof (bits_of_weighted_sum bits2 Hlen2) as I2.
  rewrite <- S1 in I1. rewrite <- S2 in I2.
  split; congruence.
Qed.

Lemma bool_arr_to_char_injective_witness :
  bits_of 0x68 = [false; false; false; true; false; true; true; false]
  /\ [false; false; false; true; false; true; true; false]
     = [false; false; false; true; false; true; true; false].
Proof.
  apply (bool_arr_to_char_injective
           [false; false; false; true; false; true; true; false]
           [false; false; false; true; false; true; true; false] 0x68);
    reflexivity.
Defined.

(** * What the reader never does *)

Section NoRaise.
Context {World : Type} `{Gpio World}.









End NoRaise.

(** * The events of a whole message *)

Lemma data_samples_app (t1 t2 : list Event) :
  data_samples (t1 ++ t2) = data_samples t1 ++ data_samples t2.
Proof.
  induction t1 as [|e t1 IH]; simpl; [reflexivity|].
  destruct e as [pin v|pin v]; [|exact IH].
  destruct (pin =? VIRTUAL_DATA_LINE); simpl; now rewrite IH.
Qed.

Lemma data_samples_polls (pin : Z) (v : bool) (k : nat) :
  pin <> VIRTUAL_DATA_LINE -> data_samples (repeat (Input pin v) k) = [].
Proof.
  intros Hpin. apply Z.eqb_neq in Hpin.
  induction k as [|k IH]; simpl; [reflexivity|]. now rewrite Hpin.
Qed.

Lemma bit_handshake_data_samples (b : bool) (tr : list Event) :
  bit_handshake b tr -> data_samples tr = [b].
Proof.
  intros [k1 k2].
  repeat rewrite data_samples_app.
  rewrite !data_samples_polls by discriminate.
  reflexivity.
Qed.

Lemma handshakes_data_samples (bits : list bool) (hs : list (list Event)) :
  Forall2 bit_handshake bits hs -> data_samples (concat hs) = bits.
Proof.
  induction 1 as [|b h bits hs Hh _ IH]; simpl; [reflexivity|].
  now rewrite data_samples_app, (bit_handshake_data_samples b h Hh), IH.
Qed.

Lemma bit_handshake_well_directed (b : bool) (tr : list Event) :
  bit_handshake b tr -> Forall well_directed tr.
Proof.
  intros [k1 k2].
  rewrite !Forall_app.
  repeat split;
    try (apply Forall_forall; intros e He; apply repeat_spec in He; subst e);
    try (constructor; [|constructor]); reflexivity.
Qed.

Lemma handshakes_well_directed (bits : list bool) (hs : list (list Event)) :
  Forall2 bit_handshake bits hs -> Forall well_directed (concat hs).
Proof.
  induction 1 as [|b h bits hs Hh _ IH]; simpl; [constructor|].
  apply Forall_app. split; [now apply (bit_handshake_well_directed b) | exact IH].
Qed.

Section Messages.
Context {World : Type} `{Gpio World}.

Lemma read_chars_Ret (n fuel : nat) (w w' : World) cs tr :
  read_chars n fuel w = Ret cs w' tr ->
  exists ts,
    List.length cs = n /\ tr = concat ts /\ Forall2 (char_run fuel) cs ts.
Proof.
  revert w cs tr. induction n as [|n IH]; intros w cs tr Hrun.
  - injection Hrun as <- _ <-. exists []. repeat split. constructor.
  - apply read_chars_S_Ret in Hrun.
    destruct Hrun as (c & cs' & w1 & t1 & t2 & Hc & Hcs & -> & ->).
    destruct (IH _ _ _ Hcs) as (ts & Hlen & -> & Hall).
    exists (t1 :: ts). simpl. repeat split; [lia|].
    constructor; [now exists w, w1 | exact Hall].
Qed.

Lemma char_run_facts (fuel : nat) (c : Z) (tr : list Event) :
  char_run fuel c tr ->
  0 <= c < 256
  /\ data_samples tr = bits_of c
  /\ Forall well_directed tr
  /\ count_occ Event_eq_dec tr (Output VIRTUAL_ENABLE_LINE GPIO_HIGH) = 8%nat.
Proof.
  intros (w1 & w2 & Hrun).
  apply read_char_Ret in Hrun.
  destruct Hrun as (bits & hs & Hlen & Hall & -> & Hc).
  destruct (eight_bits_assemble bits Hlen) as [E Hrange].
  rewrite Hc in E. injection E as ->.
  repeat split; try apply Hrange.
  - rewrite (handshakes_data_samples bits hs Hall).
    symmetry. now apply bits_of_weighted_sum.
  - now apply (handshakes_well_directed bits).
  - now rewrite (handshakes_requests bits hs Hall).
Qed.

Lemma char_runs_facts (fuel : nat) (cs : list Z) (ts : list (list Event)) :
  Forall2 (char_run fuel) cs ts ->
  Forall (fun c => 0 <= c < 256) cs
  /\ data_samples (concat ts) = flat_map bits_of cs
  /\ Forall well_directed (concat ts)
  /\ count_occ Event_eq_dec (concat ts)
       (Output VIRTUAL_ENABLE_LINE GPIO_HIGH) = (8 * List.length cs)%nat.
Proof.
  induction 1 as [|c t cs ts Hc _ (IHb & IHd & IHw & IHn)]; simpl.
  - repeat split; constructor.
  - destruct (char_run_facts fuel c t Hc) as (Hb & Hd & Hw & Hn).
    repeat split.
    + now constructor.
    + now rewrite data_samples_app, Hd, IHd.
    + apply Forall_app. now split.
    + rewrite count_occ_app, Hn, IHn. lia.
Qed.

(** The run of a returned message: the notify polls, then the runs of its
    characters and of the line feed. *)
Lemma read_vuart_string_runs (fuel : nat) (w w' : World) (msg : str) tr :
  read_vuart_string fuel w = Ret msg w' tr ->
  exists k ts,
    tr = (repeat (Input VIRTUAL_NOTIFY_LINE GPIO_LOW) k
          ++ [Input VIRTUAL_NOTIFY_LINE GPIO_HIGH])
         ++ concat ts
    /\ Forall2 (char_run fuel) (msg ++ [10]) ts.
Proof.
  intros Hrun.
  apply read_vuart_string_Ret in Hrun.
  destruct Hrun as (w1 & t0 & t1 & Hwait & Hloop & ->).
  apply poll_while_Ret in Hwait. destruct Hwait as (k & _ & -> & _).
  apply read_loop_Ret in Hloop. destruct Hloop as (cs & -> & _ & Hcs).
  apply read_chars_Ret in Hcs. destruct Hcs as (ts & _ & -> & Hall).
  now exists k, ts.
Qed.

(** X4: every character of a returned message is a byte, 0..255. *)
Theorem read_vuart_string_bytes (fuel : nat) (w w' : World) (msg : str)
    (tr : list Event) :
  read_vuart_string fuel w = Ret msg w' tr ->
  Forall (fun c => 0 <= c < 256) msg.
Proof.
  intros Hrun.
  destruct (read_vuart_string_runs _ _ _ _ _ Hrun) as (k & ts & _ & Hall).
  destruct (char_runs_facts _ _ _ Hall) as (Hbytes & _).
  apply Forall_app in Hbytes. apply Hbytes.
Qed.

(** X5: a returned run respects the set-up of the pins: every pin it reads
    was set up as an input and every pin it writes as an output, so it
    writes nothing but Enable and reads nothing but Notify, Data and
    Clock. *)
Theorem read_vuart_string_well_directed (fuel : nat) (w w' : World)
    (msg : str) (tr : list Event) :
  read_vuart_string fuel w = Ret msg w' tr ->
  Forall well_directed tr.
Proof.
  intros Hrun.
  destruct (read_vuart_string_runs _ _ _ _ _ Hrun) as (k & ts & -> & Hall).
  destruct (char_runs_facts _ _ _ Hall) as (_ & _ & Hdir & _).
  rewrite !Forall_app. split; [split | exact Hdir].
  - apply Forall_forall. intros e He. apply repeat_spec in He. subst e.
    reflexivity.
  - constructor; [reflexivity | constructor].
Qed.

(** X6: the levels sampled on the data line during a returned run are, in
    order, the LSB-first bits of the characters of the message and then of
    one line feed, nothing before, between or after; Enable is raised once
    for each of these bits. *)
Theorem read_vuart_string_samples (fuel : nat) (w w' : World) (msg : str)
    (tr : list Event) :
  read_vuart_string fuel w = Ret msg w' tr ->
  data_samples tr = flat_map bits_of (msg ++ [10])
  /\ count_occ Event_eq_dec tr (Output VIRTUAL_ENABLE_LINE GPIO_HIGH)
     = (8 * (List.length msg + 1))%nat.
Proof.
  intros Hrun.
  destruct (read_vuart_string_runs _ _ _ _ _ Hrun) as (k & ts & -> & Hall).
  destruct (char_runs_facts _ _ _ Hall) as (_ & Hd & _ & Hn).
  rewrite length_app in Hn. simpl in Hn.
  split.
  - rewrite !data_samples_app, data_samples_polls by discriminate.
    exact Hd.
  - rewrite !count_occ_app, count_occ_repeat_neq by discriminate.
    simpl. exact Hn.
Qed.

End Messages.

(** * A stalled sender *)

Section Stalled.
Context {World : Type} `{Gpio World}.

Lemma sample_bit_stalled (fuel : nat) (bits : list bool) (w : World) :
  (forall n, poll_level n VIRTUAL_CLOCK_LINE
               (gpio_output w VIRTUAL_ENABLE_LINE GPIO_HIGH) = GPIO_LOW) ->
  sample_bit fuel bits w = Spin.
Proof.
  intros Hstall.
  unfold sample_bit, enable, GPIO_output, wait_for_clock_high.
  unfold bind at 1. unfold bind at 1.
  now rewrite (poll_while_never fuel _ _ _ Hstall).
Qed.

Lemma read_char_stalled (fuel : nat) (w : World) :
  (forall n, poll_level n VIRTUAL_CLOCK_LINE
               (gpio_output w VIRTUAL_ENABLE_LINE GPIO_HIGH) = GPIO_LOW) ->
  read_char fuel w = Spin.
Proof.
  intros Hstall. unfold read_char. cbn [for_range].
  unfold bind at 1. unfold bind at 1.
  now rewrite (sample_bit_stalled fuel [] w Hstall).
Qed.

Lemma wait_for_notif_fuel (fuel0 fuel : nat) (w w1 : World) t0 :
  wait_for_notif fuel0 w = Ret tt w1 t0 ->
  wait_for_notif fuel w = Spin \/ wait_for_notif fuel w = Ret tt w1 t0.
Proof.
  intros Hwait. unfold wait_for_notif in *.
  destruct (Nat.le_ge_cases fuel fuel0) as [Hle|Hle].
  - destruct (poll_while_approx fuel fuel0 VIRTUAL_NOTIFY_LINE GPIO_LOW w Hle)
      as [E|E]; [now left | right; now rewrite E].
  - right.
    pose proof (poll_while_approx fuel0 fuel VIRTUAL_NOTIFY_LINE GPIO_LOW w Hle)
      as A.
    rewrite Hwait in A. now apply approx_Ret in A.
Qed.

(** X7: the reader blocks for good on a silent sender, returning no partial
    message. If Notify never reads high, or if it does but the clock never
    answers the first request, [read_vuart_string] is still waiting whatever
    fuel it is given. *)
Theorem read_vuart_string_blocks (w : World) :
  ((forall n, poll_level n VIRTUAL_NOTIFY_LINE w = GPIO_LOW) ->
   forall fuel, read_vuart_string fuel w = Spin)
  /\ (forall fuel0 w1 t0,
        wait_for_notif fuel0 w = Ret tt w1 t0 ->
        (forall n, poll_level n VIRTUAL_CLOCK_LINE
                     (gpio_output w1 VIRTUAL_ENABLE_LINE GPIO_HIGH) = GPIO_LOW) ->
        forall fuel, read_vuart_string fuel w = Spin).
Proof.
  split.
  - intros Hnever fuel. unfold read_vuart_string, wait_for_notif, bind.
    now rewrite (poll_while_never fuel _ _ _ Hnever).
  - intros fuel0 w1 t0 Hwait Hstall fuel.
    unfold read_vuart_string, bind.
    destruct (wait_for_notif_fuel fuel0 fuel w w1 t0 Hwait) as [-> | ->];
      [reflexivity|].
    destruct fuel as [|fuel]; [reflexivity|].
    cbn [read_loop]. unfold bind.
    now rewrite (read_char_stalled (S fuel) w1 Hstall).
Qed.

End Stalled.

(** * The receive loop *)

Lemma print_received_text (msg stdout : str) :
  print [str_of_string "Received:"; msg] stdout = stdout ++ received_line msg.
Proof. reflexivity. Qed.

Lemma received_line_one_line (msg : str) :
  ~ In 10 msg -> count_occ Z.eq_dec (received_line msg) 10 = 1%nat.
Proof.
  intros Hnl. unfold received_line.
  rewrite !count_occ_app.
  rewrite (proj1 (count_occ_not_In Z.eq_dec msg 10) Hnl).
  reflexivity.
Qed.

Section Loop.
Context {World : Type} `{Gpio World}.

Lemma print_received_Ret (fuel : nat) (stdout out : str) (w w' : World) tr :
  print_received fuel stdout w = Ret out w' tr ->
  exists msg,
    read_vuart_string fuel w = Ret msg w' tr
    /\ out = stdout ++ received_line msg.
Proof.
  unfold print_received. intros Hrun. inv_bind Hrun.
  injection Hrun as <- <- <-. subst tr.
  exists a. now rewrite app_nil_r, print_received_text.
Qed.

(** X8: each call of [print_received] that returns has appended exactly one
    line to the output: the text "Received: ", the message it read, and the
    only line feed of the addition at its end. *)
Theorem print_received_one_line (fuel : nat) (stdout out : str)
    (w w' : World) (tr : list Event) :
  print_received fuel stdout w = Ret out w' tr ->
  exists msg,
    read_vuart_string fuel w = Ret msg w' tr
    /\ out = stdout ++ str_of_string "Received: " ++ msg ++ [10]
    /\ count_occ Z.eq_dec (str_of_string "Received: " ++ msg ++ [10]) 10
       = 1%nat.
Proof.
  intros Hrun.
  apply print_received_Ret in Hrun. destruct Hrun as (msg & Hmsg & ->).
  exists msg. repeat split; [exact Hmsg|].
  apply received_line_one_line.
  apply read_vuart_string_Ret in Hmsg.
  destruct Hmsg as (w1 & t0 & t1 & _ & Hloop & _).
  apply read_loop_Ret in Hloop. destruct Hloop as (cs & -> & Hnl & _).
  exact Hnl.
Qed.



End Loop.

(** * Messages from the simulated sender *)


(** X10: what the simulated sender transmits is what the reader returns.
    For every message of bytes without a line feed, sent after a notify
    pulse and followed by a line feed, with any delays, the reader returns
    that message and leaves unread whatever comes after the line feed. *)
Theorem read_vuart_string_round_trip (idle setup hold : nat) (msg : str)
    (rest : Trace) :
  Forall (fun c => 0 <= c < 256) msg -> ~ In 10 msg ->
  exists fuel tr,
    read_vuart_string fuel (send_message idle setup hold (msg ++ [10]) ++ rest)
    = Ret msg rest tr.
Proof.
  intros Hbytes Hnl.
  set (pulse := repeat (mkLevels false false false) idle
                ++ [mkLevels true false false]).
  set (frames := flat_map (send_byte setup hold) (msg ++ [10])).
  exists (List.length pulse + List.length frames)%nat.
  replace (send_message idle setup hold (msg ++ [10]) ++ rest)
    with (pulse ++ frames ++ rest).
  - apply (read_vuart_string_decodes msg pulse frames rest).
    + now apply settles_repeat.
    + apply send_bytes_carries. apply Forall_app. split; [exact Hbytes|].
      repeat constructor; lia.
    + exact Hnl.
    + apply Nat.le_refl.
  - unfold send_message, pulse, frames. now rewrite <- !app_assoc.
Qed.

Lemma read_vuart_string_round_trip_witness :
  exists fuel tr,
    read_vuart_string fuel
      (send_message 2 1 3 ([0x68; 0x69] ++ [10]) ++ [mkLevels true true true])
    = Ret [0x68; 0x69] [mkLevels true true true] tr.
Proof.
  apply (read_vuart_string_round_trip 2 1 3 [0x68; 0x69]
           [mkLevels true true true]).
  - repeat constructor; lia.
  - simpl. intros [E|[E|[]]]; discriminate E.
Defined.



(** * The added theorems on sample runs *)

Lemma read_vuart_string_bytes_witness :
  read_vuart_string 2 h_line = Ret [0x68] [] h_line_events
  /\ Forall (fun c => 0 <= c < 256) [0x68].
Proof.
  assert (E : read_vuart_string 2 h_line = Ret [0x68] [] h_line_events)
    by reflexivity.
  split; [exact E|].
  exact (read_vuart_string_bytes 2 h_line [] [0x68] h_line_events E).
Defined.

Lemma read_vuart_string_well_directed_witness :
  read_vuart_string 2 h_line = Ret [0x68] [] h_line_events
  /\ Forall well_directed h_line_events.
Proof.
  assert (E : read_vuart_string 2 h_line = Ret [0x68] [] h_line_events)
    by reflexivity.
  split; [exact E|].
  exact (read_vuart_string_well_directed 2 h_line [] [0x68] h_line_events E).
Defined.

Lemma read_vuart_string_samples_witness :
  read_vuart_string 2 h_line = Ret [0x68] [] h_line_events
  /\ data_samples h_line_events = flat_map bits_of ([0x68] ++ [10])
  /\ count_occ Event_eq_dec h_line_events
       (Output VIRTUAL_ENABLE_LINE GPIO_HIGH) = (8 * (1 + 1))%nat.
Proof.
  assert (E : read_vuart_string 2 h_line = Ret [0x68] [] h_line_events)
    by reflexivity.
  split; [exact E|].
  exact (read_vuart_string_samples 2 h_line [] [0x68] h_line_events E).
Defined.

Lemma read_vuart_string_blocks_witness :
  (forall fuel, read_vuart_string fuel ([] : Trace) = Spin)
  /\ (forall fuel, read_vuart_string fuel silent_sender_line = Spin).
Proof.
  split.
  - apply (proj1 (read_vuart_string_blocks ([] : Trace))).
    intros n. apply idle_line_reads_low.
  - apply (proj2 (read_vuart_string_blocks silent_sender_line) 1%nat []
             [Input VIRTUAL_NOTIFY_LINE true]).
    + reflexivity.
    + intros n. apply idle_line_reads_low.
Defined.

Lemma print_received_one_line_witness :
  exists msg,
    read_vuart_string 2 h_line = Ret msg [] h_line_events
    /\ str_of_string "Received: h" ++ [10]
       = [] ++ str_of_string "Received: " ++ msg ++ [10]
    /\ count_occ Z.eq_dec (str_of_string "Received: " ++ msg ++ [10]) 10
       = 1%nat.
Proof.
  apply (print_received_one_line 2 [] (str_of_string "Received: h" ++ [10])
           h_line [] h_line_events).
  reflexivity.
Defined.

(** * Sampling only while Enable is high *)

Lemma samples_while_enabled_app (t1 t2 : list Event) (level : option bool) :
  samples_while_enabled (t1 ++ t2) level
  = samples_while_enabled t1 level
    && samples_while_enabled t2 (enable_level t1 level).
Proof.
  revert level. induction t1 as [|e t1 IH]; intros level; simpl.
  - reflexivity.
  - destruct e as [pin v|pin v]; rewrite IH; [|reflexivity].
    now rewrite andb_assoc.
Qed.

Lemma samples_while_enabled_polls (pin : Z) (v : bool) (k : nat) level :
  pin <> VIRTUAL_DATA_LINE ->
  samples_while_enabled (repeat (Input pin v) k) level = true.
Proof.
  intros Hpin. apply Z.eqb_neq in Hpin.
  induction k as [|k IH]; simpl; [reflexivity|]. now rewrite Hpin, IH.
Qed.

Lemma bit_handshake_samples_while_enabled (b : bool) (tr : list Event) level :
  bit_handshake b tr -> samples_while_enabled tr level = true.
Proof.
  intros [k1 k2].
  repeat (rewrite samples_while_enabled_app || rewrite enable_level_app
          || rewrite enable_level_polls
          || rewrite samples_while_enabled_polls by discriminate).
  reflexivity.
Qed.

Lemma handshakes_samples_while_enabled (bits : list bool)
    (hs : list (list Event)) level :
  Forall2 bit_handshake bits hs ->
  samples_while_enabled (concat hs) level = true.
Proof.
  intros Hall. revert level.
  induction Hall as [|b h bits hs Hh _ IH]; intros level; simpl.
  - reflexivity.
  - now rewrite samples_while_enabled_app,
      (bit_handshake_samples_while_enabled b h level Hh), IH.
Qed.

Section Sampling.
Context {World : Type} `{Gpio World}.

Lemma char_runs_samples_while_enabled (fuel : nat) (cs : list Z)
    (ts : list (list Event)) level :
  Forall2 (char_run (World:=World) fuel) cs ts ->
  samples_while_enabled (concat ts) level = true.
Proof.
  intros Hall. revert level.
  induction Hall as [|c t cs ts (w1 & w2 & Hc) _ IH]; intros level; simpl.
  - reflexivity.
  - apply read_char_Ret in Hc.
    destruct Hc as (bits & hs & _ & Hhs & -> & _).
    now rewrite samples_while_enabled_app,
      (handshakes_samples_while_enabled bits hs level Hhs), IH.
Qed.

(** X12: in a returned run the data line is sampled only while Enable is
    driven high, whatever level Enable had before the run: the reader never
    takes a bit it has not requested. *)
Theorem read_vuart_string_samples_while_enabled (fuel : nat) (w w' : World)
    (msg : str) (tr : list Event) (level : option bool) :
  read_vuart_string fuel w = Ret msg w' tr ->
  samples_while_enabled tr level = true.
Proof.
  intros Hrun.
  destruct (read_vuart_string_runs _ _ _ _ _ Hrun) as (k & ts & -> & Hall).
  rewrite !samples_while_enabled_app.
  rewrite samples_while_enabled_polls by discriminate.
  now rewrite (char_runs_samples_while_enabled fuel _ ts _ Hall).
Qed.

End Sampling.

Lemma read_vuart_string_samples_while_enabled_witness :
  read_vuart_string 2 h_line = Ret [0x68] [] h_line_events
  /\ samples_while_enabled h_line_events (Some false) = true.
Proof.
  assert (E : read_vuart_string 2 h_line = Ret [0x68] [] h_line_events)
    by reflexivity.
  split; [exact E|].
  exact (read_vuart_string_samples_while_enabled 2 h_line [] [0x68]
           h_line_events (Some false) E).
Defined.
